(** * Mythic Runes: the round engine

    A shallow embedding of the game logic of the Mythic Runes word game
    (the configuration table, [Utils], [GameState], [Dictionary],
    [LetterGenerator], [GameTimer] and the submission pipeline of
    [MythicRunesGame]) together with the properties of the round engine.

    Conventions of the embedding:
    - JavaScript strings are [string]s of 7-bit characters; the game only
      ever sees letters after [sanitizeInput];
    - a JavaScript [Set] of words is a [gset string], an object used as a
      dictionary is a [gmap];
    - numbers that are integers in the program are [Z] (or [nat] for
      lengths, indexes and counters that the program never lets go below
      zero); the seconds of the timer, which can be any whole number, are
      computed as the doubles they are;
    - [Date.now()], [Math.random()], the storage and the network are
      inputs of the functions that consult them;
    - [Logger] calls are recorded in a log where a property speaks about
      logging, and dropped elsewhere; DOM updates are not modelled. *)

From Stdlib Require Import ZArith Ascii String.
From stdpp Require Import gmap strings list fin_maps fin_sets.

Local Open Scope Z_scope.

(** ** GAME_CONFIG *)

Module GAME_CONFIG.

Definition DURATION_SECONDS : Z := 120.
Definition NUM_LETTERS : nat := 10.
Definition MIN_WORD_LENGTH : nat := 2.
Definition MAX_WORD_LENGTH : nat := 20.
Definition VOWEL_POOL : string := "AEIOU".
Definition CONSONANT_POOL : string :=
  "BBCCDDDFFGGHHJJKKLLMMNNPPQQRRSSTTTVVWWXXYYZZ".

(** The scoring object: word length to points. *)
Definition SCORING : gmap nat Z :=
  <[2%nat := 1]> (<[3%nat := 2]> (<[4%nat := 3]> (<[5%nat := 5]>
  (<[6%nat := 8]> (<[7%nat := 12]> (<[8%nat := 20]> ∅)))))).

(** 7 * 24 * 60 * 60 * 1000 milliseconds. *)
Definition DICTIONARY_MAX_AGE : Z := 7 * 24 * 60 * 60 * 1000.

End GAME_CONFIG.

(** ** GameState *)

Module GameState.

Record t : Type := mk {
  currentLetters : list ascii;
  foundWords : gset string;
  invalidWords : gset string;
  score : Z;
  timeLeft : Z;
  isActive : bool;
  selectedCharacter : option string;
  characterImagePath : option string;
  gameStartTime : option Z;
  gameEndTime : option Z
}.

Definition reset : t :=
  {| currentLetters := [];
     foundWords := ∅;
     invalidWords := ∅;
     score := 0;
     timeLeft := GAME_CONFIG.DURATION_SECONDS;
     isActive := false;
     selectedCharacter := None;
     characterImagePath := None;
     gameStartTime := None;
     gameEndTime := None |}.

(** [GAME_CONFIG.SCORING[length] || GAME_CONFIG.SCORING[8]]: the left
    operand is used unless it is undefined or zero.  The right operand
    reads the constant key 8 of the frozen table (see [SCORING_8]). *)
Definition calculateWordScore (word : string) : Z :=
  let length := String.length word in
  let fallback := default 0 (GAME_CONFIG.SCORING !! 8%nat) in
  match GAME_CONFIG.SCORING !! length with
  | Some v => if v =? 0 then fallback else v
  | None => fallback
  end.

Definition addFoundWord (word : string) (st : t) : t :=
  {| currentLetters := currentLetters st;
     foundWords := {[word]} ∪ foundWords st;
     invalidWords := invalidWords st;
     score := score st + calculateWordScore word;
     timeLeft := timeLeft st;
     isActive := isActive st;
     selectedCharacter := selectedCharacter st;
     characterImagePath := characterImagePath st;
     gameStartTime := gameStartTime st;
     gameEndTime := gameEndTime st |}.

Definition addInvalidWord (word : string) (st : t) : t :=
  {| currentLetters := currentLetters st;
     foundWords := foundWords st;
     invalidWords := {[word]} ∪ invalidWords st;
     score := score st;
     timeLeft := timeLeft st;
     isActive := isActive st;
     selectedCharacter := selectedCharacter st;
     characterImagePath := characterImagePath st;
     gameStartTime := gameStartTime st;
     gameEndTime := gameEndTime st |}.

Definition hasFoundWord (word : string) (st : t) : bool :=
  bool_decide (word ∈ foundWords st).

Definition hasInvalidWord (word : string) (st : t) : bool :=
  bool_decide (word ∈ invalidWords st).

(** [now] is the value of [Date.now()] at the call. *)
Definition startGame (now : Z) (st : t) : t :=
  {| currentLetters := currentLetters st;
     foundWords := foundWords st;
     invalidWords := invalidWords st;
     score := score st;
     timeLeft := timeLeft st;
     isActive := true;
     selectedCharacter := selectedCharacter st;
     characterImagePath := characterImagePath st;
     gameStartTime := Some now;
     gameEndTime := gameEndTime st |}.

Definition endGame (now : Z) (st : t) : t :=
  {| currentLetters := currentLetters st;
     foundWords := foundWords st;
     invalidWords := invalidWords st;
     score := score st;
     timeLeft := timeLeft st;
     isActive := false;
     selectedCharacter := selectedCharacter st;
     characterImagePath := characterImagePath st;
     gameStartTime := gameStartTime st;
     gameEndTime := Some now |}.

(** Assignments made to the state from outside the class. *)
Definition setCurrentLetters (letters : list ascii) (st : t) : t :=
  {| currentLetters := letters;
     foundWords := foundWords st;
     invalidWords := invalidWords st;
     score := score st;
     timeLeft := timeLeft st;
     isActive := isActive st;
     selectedCharacter := selectedCharacter st;
     characterImagePath := characterImagePath st;
     gameStartTime := gameStartTime st;
     gameEndTime := gameEndTime st |}.

Definition setTimeLeft (seconds : Z) (st : t) : t :=
  {| currentLetters := currentLetters st;
     foundWords := foundWords st;
     invalidWords := invalidWords st;
     score := score st;
     timeLeft := seconds;
     isActive := isActive st;
     selectedCharacter := selectedCharacter st;
     characterImagePath := characterImagePath st;
     gameStartTime := gameStartTime st;
     gameEndTime := gameEndTime st |}.

Definition setCharacter (character image : option string) (st : t) : t :=
  {| currentLetters := currentLetters st;
     foundWords := foundWords st;
     invalidWords := invalidWords st;
     score := score st;
     timeLeft := timeLeft st;
     isActive := isActive st;
     selectedCharacter := character;
     characterImagePath := image;
     gameStartTime := gameStartTime st;
     gameEndTime := gameEndTime st |}.

End GameState.

(** ** Utils *)

Module Utils.

(** [String.prototype.toLowerCase] on one character: A-Z go to a-z,
    every other 7-bit character is left alone. *)
Definition toLowerChar (c : ascii) : ascii :=
  let n := nat_of_ascii c in
  if ((65 <=? n) && (n <=? 90))%nat then ascii_of_nat (n + 32) else c.

Definition isLowerLetter (c : ascii) : bool :=
  let n := nat_of_ascii c in ((97 <=? n) && (n <=? 122))%nat.

Definition isUpperLetter (c : ascii) : bool :=
  let n := nat_of_ascii c in ((65 <=? n) && (n <=? 90))%nat.

(** The white space that [trim] removes: tab, line feed, vertical tab,
    form feed, carriage return and space. *)
Definition isWhiteSpace (c : ascii) : bool :=
  let n := nat_of_ascii c in ((9 <=? n) && (n <=? 13) || (n =? 32))%nat.

Definition chars (s : string) : list ascii := list_ascii_of_string s.
Definition ofChars (l : list ascii) : string := string_of_list_ascii l.

Definition toLowerCase (s : string) : string :=
  ofChars (toLowerChar <$> chars s).

Fixpoint trimStart (l : list ascii) : list ascii :=
  match l with
  | [] => []
  | c :: l' => if isWhiteSpace c then trimStart l' else l
  end.

Definition trim (s : string) : string :=
  ofChars (reverse (trimStart (reverse (trimStart (chars s))))).

(** [input.trim().toLowerCase().replace(/[^a-z]/g, '').slice(0, MAX)] *)
Definition sanitizeInput (input : string) : string :=
  ofChars
    (take GAME_CONFIG.MAX_WORD_LENGTH
       (filter (λ c, isLowerLetter c = true)
          (chars (toLowerCase (trim input))))).

(** Length between the two bounds and [/^[a-zA-Z]+$/]. *)
Definition isValidInput (input : string) : bool :=
  if (String.length input <? GAME_CONFIG.MIN_WORD_LENGTH)%nat then false
  else if (GAME_CONFIG.MAX_WORD_LENGTH <? String.length input)%nat then false
  else
    match chars input with
    | [] => false
    | cs => forallb (λ c, isLowerLetter c || isUpperLetter c) cs
    end.

(** One value of [Math.random()]: the rational
    [numer / (numer + gap + 1)], which lies in [0, 1); every rational of
    that interval has this form. *)
Record draw : Type := mkDraw { numer : nat; gap : nat }.

(** [Math.floor(Math.random() * n)] for the draw [u]. *)
Definition randomFloor (u : draw) (n : nat) : nat :=
  (numer u * n / (numer u + gap u + 1))%nat.

Section Shuffle.
Context {A : Type}.

(** [[a[i], a[j]] = [a[j], a[i]]].  The loop below only calls it with
    [j <= i < length a] (lemma [randomFloor_lt]), where both reads find
    an element and both writes stay inside the array. *)
Definition swap (i j : nat) (shuffled : list A) : list A :=
  match shuffled !! i, shuffled !! j with
  | Some x, Some y => <[j := x]> (<[i := y]> shuffled)
  | _, _ => shuffled
  end.

(** The body of the loop [for (let i = length - 1; i > 0; i--)], from
    index [i] down to 1.  [random k] is the [k]-th value returned by
    [Math.random()]; the result carries the number of values used. *)
Fixpoint shuffleLoop (random : nat → draw) (k : nat) (i : nat)
    (shuffled : list A) : list A * nat :=
  match i with
  | O => (shuffled, k)
  | S i' =>
      let j := randomFloor (random k) (i + 1) in
      shuffleLoop random (S k) i' (swap i j shuffled)
  end.

Definition shuffleArray (random : nat → draw) (k : nat)
    (array : list A) : list A * nat :=
  shuffleLoop random k (length array - 1) array.
End Shuffle.

End Utils.

(** ** LetterGenerator *)

Module LetterGenerator.

Import Utils.

(** A letter pushed on the array: [pool[randomIndex]] is a character, or
    [undefined] ([None]) when the index is outside the string. *)
Fixpoint pushRandom (pool : string) (random : nat → draw) (k : nat)
    (count : nat) (letters : list (option ascii))
    : list (option ascii) * nat :=
  match count with
  | O => (letters, k)
  | S count' =>
      let randomIndex := randomFloor (random k) (String.length pool) in
      pushRandom pool random (S k) count'
        (letters ++ [String.get randomIndex pool])
  end.

Definition numVowels : nat := 4.
Definition numConsonants : nat := GAME_CONFIG.NUM_LETTERS - numVowels.

(** The letters before the final shuffle. *)
Definition draws (random : nat → draw) (k : nat)
    : list (option ascii) * nat :=
  let '(letters, k) :=
    pushRandom GAME_CONFIG.VOWEL_POOL random k numVowels [] in
  pushRandom GAME_CONFIG.CONSONANT_POOL random k numConsonants letters.

Definition generate (random : nat → draw) (k : nat)
    : list (option ascii) * nat :=
  let '(letters, k) := draws random k in
  shuffleArray random k letters.

(** The first loop of [canFormWord]: count the available letters.  The
    keys of [letterCounts] are single characters, which no inherited
    property of a JavaScript object is named after, so a missing key reads
    as [undefined]. *)
Definition countLetters (availableLetters : list ascii) : gmap ascii nat :=
  foldl
    (λ letterCounts char,
       let lowerChar := toLowerChar char in
       <[lowerChar := (default 0 (letterCounts !! lowerChar) + 1)%nat]>
         letterCounts)
    ∅ availableLetters.

(** The second loop: use up one available letter per character. *)
Fixpoint consume (word : list ascii) (letterCounts : gmap ascii nat)
    : bool :=
  match word with
  | [] => true
  | char :: rest =>
      match letterCounts !! char with
      | None | Some O => false
      | Some (S n) => consume rest (<[char := n]> letterCounts)
      end
  end.

Definition canFormWord (word : string) (availableLetters : list ascii)
    : bool :=
  consume (chars (toLowerCase word)) (countLetters availableLetters).

(** How often a letter occurs in a sequence of letters. *)
Definition occurrences (letter : ascii) (letters : list ascii) : nat :=
  count_occ ascii_dec letters letter.

(** Whether an element of a generated array is a character of [pool]. *)
Definition isFrom (pool : string) (letter : option ascii) : bool :=
  match letter with
  | Some c => bool_decide (c ∈ chars pool)
  | None => false
  end.

Definition countFrom (pool : string) (letters : list (option ascii)) : nat :=
  length (filter (λ letter, isFrom pool letter = true) letters).

End LetterGenerator.

(** ** Dictionary *)

Module Dictionary.

Import Utils.

Inductive error : Type :=
  | TransportError (message : string)
  | HttpError (status : nat)
  | BodyError (message : string).

(** The promise returned by an [async] method, once settled. *)
Inductive promise : Type :=
  | Fulfilled
  | Rejected (e : error).

Inductive logEntry : Type :=
  | InfoLoadedFromCache (size : nat)
  | DebugLoadingFromNetwork
  | InfoLoadedFromNetwork (size : nat)
  | WarnNetworkFailed (e : error)
  | ErrorLoading (e : error)
  | InfoFallback
  | DebugCacheExpired
  | WarnCacheError
  | DebugCached.

(** The [words] field of the cached record. *)
Inductive cachedWords : Type :=
  | WordsMissing
  | WordsNotIterable
  | Words (ws : list string).

(** The value [Storage.get] returns for the dictionary key ([None] is
    [null]); a timestamp of 0 is falsy. *)
Record cached : Type := mkCached {
  cached_words : cachedWords;
  cached_timestamp : Z
}.

Inductive body : Type :=
  | BodyFails (message : string)
  | Text (text : string).

(** What [fetch('words.txt')] and [response.text()] produce. *)
Inductive fetched : Type :=
  | FetchFails (message : string)
  | Response (ok : bool) (status : nat) (content : body).

(** The surroundings of one load: both clock readings, the network's
    answer and whether the cache write goes through. *)
Record env : Type := mkEnv {
  nowAtCacheCheck : Z;
  response : fetched;
  nowAtSave : Z;
  storageAccepts : bool
}.

Record t : Type := mk {
  words : gset string;
  isLoaded : bool;
  loadPromise : option promise;
  retryCount : nat;
  (** the storage slot of the dictionary key and the log *)
  storage : option cached;
  log : list logEntry
}.

Definition new (storage : option cached) : t :=
  {| words := ∅; isLoaded := false; loadPromise := None; retryCount := 0;
     storage := storage; log := [] |}.

Definition logged (entry : logEntry) (d : t) : t :=
  {| words := words d; isLoaded := isLoaded d;
     loadPromise := loadPromise d; retryCount := retryCount d;
     storage := storage d; log := log d ++ [entry] |}.

Definition setWords (ws : gset string) (d : t) : t :=
  {| words := ws; isLoaded := true;
     loadPromise := loadPromise d; retryCount := retryCount d;
     storage := storage d; log := log d |}.

Definition setStorage (s : option cached) (d : t) : t :=
  {| words := words d; isLoaded := isLoaded d;
     loadPromise := loadPromise d; retryCount := retryCount d;
     storage := s; log := log d |}.

Definition setLoadPromise (p : promise) (d : t) : t :=
  {| words := words d; isLoaded := isLoaded d;
     loadPromise := Some p; retryCount := retryCount d;
     storage := storage d; log := log d |}.

Definition fallbackWords : list string :=
  ["cat"; "dog"; "house"; "tree"; "run"; "jump"; "play"; "game"; "word";
   "letter"; "apple"; "banana"; "orange"; "computer"; "keyboard"; "mouse";
   "ocean"; "mountain"; "elephant"; "giraffe"; "happiness"; "freedom";
   "courage"; "justice"; "wisdom"; "viking"; "valkyrie"; "norse"; "rune";
   "myth"; "legend"; "hero"; "battle"; "sword"; "shield"; "dragon"; "wolf";
   "bear"; "eagle"; "storm"; "thunder"; "lightning"; "fire"; "ice"; "wind";
   "earth"; "water"; "magic"; "spell"; "quest"; "adventure"]%string.

Definition _loadFallbackDictionary (d : t) : t :=
  logged InfoFallback (setWords (list_to_set fallbackWords) d).

(** Returns the cached set, or [None] for [null]. *)
Definition _loadFromCache (now : Z) (d : t) : option (gset string) * t :=
  match storage d with
  | None => (None, d)
  | Some c =>
      match cached_words c with
      | WordsMissing => (None, d)
      | ws =>
          if cached_timestamp c =? 0 then (None, d)
          else
            let cacheAge := now - cached_timestamp c in
            if cacheAge <? GAME_CONFIG.DICTIONARY_MAX_AGE then
              match ws with
              | Words l => (Some (list_to_set l), d)
              | _ => (None, logged WarnCacheError d)
              end
            else (None, setStorage None (logged DebugCacheExpired d))
      end
  end.

Definition _saveToCache (now : Z) (accepts : bool) (d : t) : t :=
  let data := {| cached_words := Words (elements (words d));
                 cached_timestamp := now |} in
  logged DebugCached
    (if accepts then setStorage (Some data) d else d).

(** [text.split('\n')] *)
Fixpoint splitLines (cur : list ascii) (text : list ascii)
    : list (list ascii) :=
  match text with
  | [] => [reverse cur]
  | c :: text' =>
      if Ascii.eqb c "010"%char then reverse cur :: splitLines [] text'
      else splitLines (c :: cur) text'
  end.

Definition parseWords (text : string) : list string :=
  filter (λ word, (GAME_CONFIG.MIN_WORD_LENGTH ≤ String.length word)%nat)
    ((λ word, toLowerCase (trim (ofChars word)))
       <$> splitLines [] (chars text)).

(** The left injection is the error the method throws. *)
Definition _loadFromNetwork (e : env) (d : t) : (error + unit) * t :=
  let d := logged DebugLoadingFromNetwork d in
  let failed err := (inl err, logged (WarnNetworkFailed err) d) in
  match response e with
  | FetchFails message => failed (TransportError message)
  | Response ok status content =>
      if negb ok then failed (HttpError status)
      else
        match content with
        | BodyFails message => failed (BodyError message)
        | Text text =>
            let d := setWords (list_to_set (parseWords text)) d in
            let d := _saveToCache (nowAtSave e) (storageAccepts e) d in
            (inr tt, logged (InfoLoadedFromNetwork (size (words d))) d)
        end
  end.

Definition _loadDictionary (e : env) (d : t) : promise * t :=
  match _loadFromCache (nowAtCacheCheck e) d with
  | (Some cachedSet, d) =>
      let d := setWords cachedSet d in
      (Fulfilled, logged (InfoLoadedFromCache (size (words d))) d)
  | (None, d) =>
      match _loadFromNetwork e d with
      | (inr _, d) => (Fulfilled, d)
      | (inl err, d) =>
          let d := logged (ErrorLoading err) d in
          let d := _loadFallbackDictionary d in
          (Rejected err, d)
      end
  end.

Definition load (e : env) (d : t) : promise * t :=
  match loadPromise d with
  | Some p => (p, d)
  | None =>
      let '(p, d) := _loadDictionary e d in
      (p, setLoadPromise p d)
  end.

Definition hasWord (word : string) (dictionary : gset string) : bool :=
  bool_decide (toLowerCase word ∈ dictionary).

(** No storage record and no network. *)
Definition offline : env :=
  {| nowAtCacheCheck := 1000;
     response := FetchFails "Failed to fetch";
     nowAtSave := 1000;
     storageAccepts := true |}.

End Dictionary.

(** ** GameTimer *)

Module GameTimer.

(** The calls made to the two callbacks given to the constructor. *)
Inductive event : Type :=
  | Tick (timeLeft : Z)
  | Complete.

(** [interval] is [true] while an interval is registered (the field
    holds its id) and [false] while the field is [null]. *)
Record t : Type := mk {
  interval : bool;
  timeLeft : Z;
  isPaused : bool
}.

Definition new : t :=
  {| interval := false; timeLeft := 0; isPaused := false |}.

Definition stop (tm : t) : t :=
  if interval tm
  then {| interval := false; timeLeft := timeLeft tm;
          isPaused := isPaused tm |}
  else tm.

Definition start (duration : Z) (tm : t) : t :=
  let tm := stop tm in
  {| interval := true; timeLeft := duration; isPaused := false |}.

Definition pause (tm : t) : t :=
  {| interval := interval tm; timeLeft := timeLeft tm; isPaused := true |}.

Definition resume (tm : t) : t :=
  {| interval := interval tm; timeLeft := timeLeft tm; isPaused := false |}.

(** The seconds are JavaScript numbers, that is doubles, holding whole
    numbers.  [roundDouble n] is the double nearest to the whole number
    [n], a tie going to the even mantissa: below 2^53 in magnitude every
    whole number is a double; from there on the doubles are the
    multiples of [ulp], the power of two 52 binary digits below the
    leading digit of [n].  (Magnitudes of 2^1024 and more, where a
    double is infinite, are beyond this model.) *)
Definition roundDouble (n : Z) : Z :=
  if Z.abs n <? 2 ^ 53 then n
  else
    let ulp := 2 ^ (Z.log2 (Z.abs n) - 52) in
    let q := n `div` ulp in
    let r := n `mod` ulp in
    if 2 * r <? ulp then q * ulp
    else if ulp <? 2 * r then (q + 1) * ulp
    else if Z.even q then q * ulp else (q + 1) * ulp.

(** [this.timeLeft += seconds] *)
Definition addTime (seconds : Z) (tm : t) : t :=
  {| interval := interval tm;
     timeLeft := roundDouble (timeLeft tm + seconds);
     isPaused := isPaused tm |}.

(** The function given to [setInterval], run once; it returns the calls
    it makes to the callbacks, in order.  [this.timeLeft--] subtracts 1
    in double arithmetic. *)
Definition onInterval (tm : t) : t * list event :=
  if isPaused tm then (tm, [])
  else
    let tm := {| interval := interval tm;
                 timeLeft := roundDouble (timeLeft tm - 1);
                 isPaused := isPaused tm |} in
    if timeLeft tm <=? 0
    then (stop tm, [Tick (timeLeft tm); Complete])
    else (tm, [Tick (timeLeft tm)]).

(** What can happen to a timer: a method call, or one second passing
    ([Elapse]), which runs the interval function if one is registered.
    A duration and an amount of seconds are doubles holding whole
    numbers. *)
Inductive action : Type :=
  | Start (duration : Z)
  | Stop
  | Pause
  | Resume
  | AddTime (seconds : Z)
  | Elapse.

Definition step (a : action) (tm : t) : t * list event :=
  match a with
  | Start duration => (start duration tm, [])
  | Stop => (stop tm, [])
  | Pause => (pause tm, [])
  | Resume => (resume tm, [])
  | AddTime seconds => (addTime seconds tm, [])
  | Elapse => if interval tm then onInterval tm else (tm, [])
  end.

(** A sequence of actions, with every callback call made on the way. *)
Fixpoint run (actions : list action) (tm : t) : t * list event :=
  match actions with
  | [] => (tm, [])
  | a :: rest =>
      let '(tm, events) := step a tm in
      let '(tm, events') := run rest tm in
      (tm, events ++ events')
  end.

Definition isStart (a : action) : bool :=
  match a with Start _ => true | _ => false end.

(** The amounts added are not negative. *)
Definition addsTime (a : action) : bool :=
  match a with AddTime seconds => 0 <=? seconds | _ => true end.

Definition isComplete (ev : event) : bool :=
  match ev with Complete => true | Tick _ => false end.

Definition completions (events : list event) : nat :=
  length (filter (λ ev, isComplete ev = true) events).

(** Actions of one run: the timer is not started again. *)
Definition oneRun (a : action) : bool := negb (isStart a).

(** The course of every run: only ticks above zero as long as it has not
    completed; once it has, these ticks, one tick of zero or less and the
    completion, and the interval is cleared. *)
Inductive course (tm : t) (events : list event) : Prop :=
  | course_ticking ticks :
      events = Tick <$> ticks →
      Forall (λ n, 0 < n) ticks →
      course tm events
  | course_completed ticks n :
      events = (Tick <$> ticks) ++ [Tick n; Complete] →
      Forall (λ n, 0 < n) ticks →
      n ≤ 0 →
      interval tm = false →
      course tm events.

(** The shape of a run that began with a positive duration: while the
    interval is registered at least one second is left and only ticks
    have been reported; once it is cleared the ticks are either all
    there is (the timer was stopped by hand) or they end in the tick to
    zero followed by the one completion. *)
Inductive shape (tm : t) (events : list event) : Prop :=
  | shape_counting ticks :
      events = Tick <$> ticks →
      Forall (λ n, 1 ≤ n) ticks →
      0 ≤ timeLeft tm →
      (interval tm = true → 1 ≤ timeLeft tm) →
      shape tm events
  | shape_completed ticks :
      events = (Tick <$> ticks) ++ [Tick 0; Complete] →
      Forall (λ n, 1 ≤ n) ticks →
      0 ≤ timeLeft tm →
      interval tm = false →
      shape tm events.

(** Actions that keep the run one run, and add no negative time. *)
Definition tame (a : action) : bool := negb (isStart a) && addsTime a.

End GameTimer.

(** ** MythicRunesGame: the submission pipeline and the round life cycle *)

Module MythicRunesGame.

Import Utils.

Inductive outcome : Type :=
  | NotActive
  | NoInput
  | TooShort
  | AlreadyFound
  | AlreadyInvalid
  | CannotForm
  | NotInDictionary
  | Valid (points : Z).

(** [wordInput] is the value of the input element, [None] when the
    element is missing; [dictionary] is the word set of the dictionary.
    The message shown is determined by the outcome.  The method only
    awaits (the animations) after its last access to the game state, so
    the tests and the update of one submission run without interruption. *)
Definition handleSubmitWord (dictionary : gset string)
    (wordInput : option string) (gameState : GameState.t)
    : GameState.t * outcome :=
  if negb (GameState.isActive gameState) then (gameState, NotActive)
  else
    match wordInput with
    | None => (gameState, NoInput)
    | Some value =>
        let word := sanitizeInput value in
        if negb (isValidInput word) then (gameState, TooShort)
        else if GameState.hasFoundWord word gameState
        then (gameState, AlreadyFound)
        else if GameState.hasInvalidWord word gameState
        then (gameState, AlreadyInvalid)
        else if negb (LetterGenerator.canFormWord word
                        (GameState.currentLetters gameState))
        then (GameState.addInvalidWord word gameState, CannotForm)
        else if Dictionary.hasWord word dictionary
        then
          let points := GameState.calculateWordScore word in
          (GameState.addFoundWord word gameState, Valid points)
        else (GameState.addInvalidWord word gameState, NotInDictionary)
    end.

(** The state part of [startGame]: reset, pick the character, install
    the generated letters, start. *)
Definition startGame (now : Z) (letters : list ascii) : GameState.t :=
  let gameState := GameState.reset in
  let character :=
    match GameState.selectedCharacter gameState with
    | Some c => c
    | None => "viking"%string
    end in
  let gameState :=
    GameState.setCharacter (Some character)
      (Some (String.append character ".png")) gameState in
  let gameState := GameState.setCurrentLetters letters gameState in
  GameState.startGame now gameState.

Definition shuffleLetters (random : nat → draw) (k : nat)
    (gameState : GameState.t) : GameState.t :=
  if negb (GameState.isActive gameState) then gameState
  else
    GameState.setCurrentLetters
      (shuffleArray random k (GameState.currentLetters gameState)).1
      gameState.

(** The round states the game can be in. *)
Inductive reachable : GameState.t → Prop :=
  | reach_reset : reachable GameState.reset
  | reach_startGame now letters : reachable (startGame now letters)
  | reach_start now st :
      reachable st → reachable (GameState.startGame now st)
  | reach_submit dictionary wordInput st :
      reachable st →
      reachable (handleSubmitWord dictionary wordInput st).1
  | reach_endGame now st :
      reachable st → reachable (GameState.endGame now st)
  | reach_shuffle random k st :
      reachable st → reachable (shuffleLetters random k st)
  | reach_tick seconds st :
      reachable st → reachable (GameState.setTimeLeft seconds st)
  | reach_character character image st :
      reachable st → reachable (GameState.setCharacter character image st).

(** What one submission does to the three parts of the round state the
    invariants speak about, case by case. *)
Inductive submitted (st : GameState.t) : GameState.t → outcome → Prop :=
  | sub_same st' out :
      st' = st →
      out ∈ [NotActive; NoInput; TooShort; AlreadyFound; AlreadyInvalid] →
      (out = AlreadyFound → ∃ w, w ∈ GameState.foundWords st) →
      submitted st st' out
  | sub_invalid word out :
      word ∉ GameState.foundWords st → word ∉ GameState.invalidWords st →
      out ∈ [CannotForm; NotInDictionary] →
      submitted st (GameState.addInvalidWord word st) out
  | sub_found word :
      word ∉ GameState.foundWords st → word ∉ GameState.invalidWords st →
      submitted st (GameState.addFoundWord word st) (Valid (GameState.calculateWordScore word)).

(** The sum of the scores of the found words. *)
Definition foundScore (found : gset string) : Z :=
  set_fold (λ word total, total + GameState.calculateWordScore word) 0 found.

(** A word of [n] letters, to speak about the score of a length. *)
Definition wordOfLength (n : nat) : string :=
  string_of_list_ascii (replicate n "a"%char).

Definition scoreOfLength (length : nat) : Z :=
  GameState.calculateWordScore (wordOfLength length).

End MythicRunesGame.

(** * Properties *)

(** ** Scoring *)

Section Scoring.

Import GAME_CONFIG GameState.

Lemma SCORING_8 : SCORING !! 8%nat = Some 20.
Proof. reflexivity. Qed.

Lemma SCORING_absent (n : nat) :
  (n < 2 ∨ 8 < n)%nat → SCORING !! n = None.
Proof.
  intros Hn. unfold SCORING.
  repeat (rewrite lookup_insert_ne by lia). apply lookup_empty.
Qed.

Lemma SCORING_present (n : nat) (v : Z) :
  SCORING !! n = Some v → (2 ≤ n ≤ 8)%nat ∧ 0 < v.
Proof.
  unfold SCORING. intros H.
  repeat (apply lookup_insert_Some in H as [[<- <-]|[? H]]; [lia|]).
  by rewrite lookup_empty in H.
Qed.

Lemma calculateWordScore_absent (w : string) :
  SCORING !! String.length w = None → calculateWordScore w = 20.
Proof. intros H. unfold calculateWordScore. by rewrite H. Qed.

(** The score as a function of the length alone. *)
Lemma calculateWordScore_by_length (w : string) :
  calculateWordScore w =
    match String.length w with
    | 2%nat => 1 | 3%nat => 2 | 4%nat => 3 | 5%nat => 5
    | 6%nat => 8 | 7%nat => 12 | _ => 20
    end.
Proof.
  unfold calculateWordScore.
  destruct (String.length w) as [|[|[|[|[|[|[|[|[|n]]]]]]]]];
    try reflexivity.
  by rewrite SCORING_absent by lia.
Qed.

Lemma calculateWordScore_pos (w : string) : 0 < calculateWordScore w.
Proof.
  rewrite calculateWordScore_by_length.
  destruct (String.length w) as [|[|[|[|[|[|[|[|[|n]]]]]]]]]; lia.
Qed.

Lemma wordOfLength_length n :
  String.length (MythicRunesGame.wordOfLength n) = n.
Proof.
  unfold MythicRunesGame.wordOfLength.
  induction n; simpl; congruence.
Qed.

(** C7.  The score is defined for every word; on words of 2 to 8
    letters it does not decrease when the length grows; a word of more
    than 8 letters scores what a word of 8 letters scores (20), so
    score(9) = score(8). *)
Theorem calculateWordScore_monotone_plateau :
  (∀ w1 w2 : string,
     (2 ≤ String.length w1)%nat →
     (String.length w1 ≤ String.length w2)%nat →
     (String.length w2 ≤ 8)%nat →
     calculateWordScore w1 ≤ calculateWordScore w2)
  ∧ (∀ w w8 : string,
       (8 < String.length w)%nat → String.length w8 = 8%nat →
       calculateWordScore w = calculateWordScore w8)
  ∧ MythicRunesGame.scoreOfLength 9 = MythicRunesGame.scoreOfLength 8.
Proof.
  split; [|split].
  - intros w1 w2 H2 Hle H8. rewrite !calculateWordScore_by_length.
    destruct (String.length w1) as [|[|[|[|[|[|[|[|[|n1]]]]]]]]];
      destruct (String.length w2) as [|[|[|[|[|[|[|[|[|n2]]]]]]]]]; lia.
  - intros w w8 Hw H8. rewrite !calculateWordScore_by_length, H8.
    destruct (String.length w) as [|[|[|[|[|[|[|[|[|n]]]]]]]]]; lia.
  - reflexivity.
Qed.

Lemma calculateWordScore_monotone_plateau_witness :
  calculateWordScore "cat" ≤ calculateWordScore "house"
  ∧ calculateWordScore "happiness" = calculateWordScore "computer".
Proof.
  destruct calculateWordScore_monotone_plateau as (Hmono & Hplateau & _).
  split.
  - apply Hmono; simpl; lia.
  - apply Hplateau; simpl; [lia | reflexivity].
Defined.

(** C10.  A length has no entry in the table exactly when it is 0, 1 or
    more than 8, and a word of such a length scores 20: adding it to the
    found words raises the score by 20. *)
Theorem calculateWordScore_no_entry (w : string) :
  SCORING !! String.length w = None →
  ((String.length w < 2)%nat ∨ (8 < String.length w)%nat)
  ∧ calculateWordScore w = 20
  ∧ ∀ st, score (addFoundWord w st) = score st + 20.
Proof.
  intros H. split; [|split].
  - destruct (decide (2 ≤ String.length w ≤ 8)%nat) as [Hin|]; [|lia].
    exfalso. revert H. unfold SCORING.
    destruct (String.length w) as [|[|[|[|[|[|[|[|[|n]]]]]]]]];
      try lia; discriminate.
  - by apply calculateWordScore_absent.
  - intros st. simpl. by rewrite calculateWordScore_absent.
Qed.

Lemma calculateWordScore_no_entry_witness :
  calculateWordScore "a" = 20 ∧ calculateWordScore "" = 20
  ∧ calculateWordScore "adventure" = 20.
Proof.
  split; [|split].
  - apply (calculateWordScore_no_entry "a"). reflexivity.
  - apply (calculateWordScore_no_entry ""). reflexivity.
  - apply (calculateWordScore_no_entry "adventure"). reflexivity.
Defined.

End Scoring.

(** ** The end of a round *)

Section EndGame.

Import GameState.

(** C2, as stated, fails: a second [endGame] one second later replaces
    the end timestamp of the first. *)
Lemma endGame_twice_restamps :
  gameEndTime (endGame 2000 (endGame 1000 (startGame 0 reset)))
  ≠ gameEndTime (endGame 1000 (startGame 0 reset)).
Proof. discriminate. Qed.

(** C2, amended.  [endGame] has no guard: every call clears the active
    flag and stamps the end time with the clock reading of that call,
    whatever the state.  A second call changes nothing but the end
    timestamp, which becomes the reading of the second call, so the two
    calls agree on it exactly when the clock readings are equal. *)
Theorem endGame_stamps_every_call (st : t) (t1 t2 : Z) :
  endGame t2 (endGame t1 st) = endGame t2 st
  ∧ gameEndTime (endGame t2 (endGame t1 st)) = Some t2
  ∧ isActive (endGame t2 (endGame t1 st)) = false
  ∧ (gameEndTime (endGame t2 (endGame t1 st)) = gameEndTime (endGame t1 st)
     ↔ t2 = t1).
Proof.
  repeat split; simpl; congruence.
Qed.

End EndGame.

(** ** The submission pipeline *)

Section Pipeline.

Import GameState MythicRunesGame.

Lemma foundScore_empty : foundScore ∅ = 0.
Proof. apply set_fold_empty. Qed.

Lemma foundScore_add (word : string) (found : gset string) :
  word ∉ found →
  foundScore ({[word]} ∪ found) = foundScore found + calculateWordScore word.
Proof.
  intros Hnew. unfold foundScore.
  rewrite (set_fold_disj_union_strong (=)); [| solve_proper | | set_solver].
  - rewrite set_fold_singleton.
    rewrite <- (set_fold_comm_acc _ (λ total, total + calculateWordScore word)).
    + f_equal.
    + intros. lia.
  - intros. lia.
Qed.

Lemma handleSubmitWord_cases dictionary wordInput st :
  submitted st (handleSubmitWord dictionary wordInput st).1
               (handleSubmitWord dictionary wordInput st).2.
Proof.
  unfold handleSubmitWord.
  destruct (isActive st); simpl;
    [| apply sub_same; [done | set_solver | done]].
  destruct wordInput as [value|]; simpl;
    [| apply sub_same; [done | set_solver | done]].
  destruct (Utils.isValidInput _); simpl;
    [| apply sub_same; [done | set_solver | done]].
  unfold hasFoundWord, hasInvalidWord.
  case_bool_decide as Hf; simpl;
    [apply sub_same; [done | set_solver | eauto] |].
  case_bool_decide as Hi; simpl;
    [apply sub_same; [done | set_solver | done] |].
  destruct (LetterGenerator.canFormWord _ _); simpl;
    [| apply sub_invalid; [done | done | set_solver]].
  destruct (Dictionary.hasWord _ _); simpl.
  - by apply sub_found.
  - apply sub_invalid; [done | done | set_solver].
Qed.

Lemma shuffleLetters_frame random k st :
  foundWords (shuffleLetters random k st) = foundWords st
  ∧ invalidWords (shuffleLetters random k st) = invalidWords st
  ∧ score (shuffleLetters random k st) = score st.
Proof. unfold shuffleLetters. by destruct (isActive st). Qed.

(** C5.  In every reachable round state the score is the sum, over the
    found words, of the score of each word. *)
Theorem score_is_sum_over_found (st : GameState.t) :
  reachable st → score st = foundScore (foundWords st).
Proof.
  induction 1 as [| | |dictionary wordInput st _ IH| |random k st _ IH| |];
    simpl; auto using foundScore_empty.
  - destruct (handleSubmitWord_cases dictionary wordInput st)
      as [st' out -> ? ?|word out ? ? ?|word Hnew ?]; simpl; auto.
    rewrite foundScore_add by assumption. by rewrite IH.
  - by destruct (shuffleLetters_frame random k st) as (-> & _ & ->).
Qed.

Lemma score_is_sum_over_found_witness :
  let st :=
    (handleSubmitWord {["cat"]} (Some "Cat ")
       (startGame 0 (Utils.chars "SCRATEPIOL"))).1 in
  score st = 2 ∧ score st = foundScore (foundWords st).
Proof.
  split; [reflexivity|].
  apply score_is_sum_over_found.
  apply reach_submit, reach_startGame.
Defined.

(** C6.  In every reachable round state no word is both a found word
    and an invalid word. *)
Theorem found_invalid_disjoint (st : GameState.t) :
  reachable st → ∀ word, ¬ (word ∈ foundWords st ∧ word ∈ invalidWords st).
Proof.
  induction 1 as [| | |dictionary wordInput st _ IH| |random k st _ IH| |];
    simpl; auto.
  - intros w [Hw _]. by apply not_elem_of_empty in Hw.
  - intros w [Hw _]. by apply not_elem_of_empty in Hw.
  - destruct (handleSubmitWord_cases dictionary wordInput st)
      as [st' out -> ? ?|word out Hf Hi ?|word Hf Hi]; simpl.
    + assumption.
    + intros w [Hw [->%elem_of_singleton|Hw']%elem_of_union];
        [tauto | by apply (IH w)].
    + intros w [[->%elem_of_singleton|Hw]%elem_of_union Hw'];
        [tauto | by apply (IH w)].
  - by destruct (shuffleLetters_frame random k st) as (-> & -> & _).
Qed.

Lemma found_invalid_disjoint_witness :
  let st :=
    (handleSubmitWord {["cat"]} (Some "zzz")
       (handleSubmitWord {["cat"]} (Some "Cat ")
          (startGame 0 (Utils.chars "SCRATEPIOL"))).1).1 in
  foundWords st = {["cat"]} ∪ ∅
  ∧ invalidWords st = {["zzz"]} ∪ ∅
  ∧ ¬ ("cat" ∈ foundWords st ∧ "cat" ∈ invalidWords st).
Proof.
  intros st. split_and!; [reflexivity | reflexivity |].
  apply (found_invalid_disjoint st).
  apply reach_submit, reach_submit, reach_startGame.
Defined.

Lemma length_ofChars (l : list ascii) :
  String.length (Utils.ofChars l) = length l.
Proof. induction l; simpl; congruence. Qed.

(** The word the pipeline works on is made of at most 20 lower-case
    letters. *)
Lemma sanitizeInput_letters (value : string) :
  Forall (λ c, Utils.isLowerLetter c = true)
    (Utils.chars (Utils.sanitizeInput value))
  ∧ (String.length (Utils.sanitizeInput value)
     ≤ GAME_CONFIG.MAX_WORD_LENGTH)%nat.
Proof.
  unfold Utils.sanitizeInput. split.
  - unfold Utils.chars at 1, Utils.ofChars.
    rewrite list_ascii_of_string_of_list_ascii.
    apply Forall_take, Forall_forall.
    by intros c [Hc _]%list_elem_of_filter.
  - rewrite length_ofChars, length_take. lia.
Qed.

(** On such a word [isValidInput] only tests the minimal length: the
    outcome [TooShort] means fewer than 2 letters. *)
Lemma isValidInput_sanitizeInput (value : string) :
  Utils.isValidInput (Utils.sanitizeInput value)
  = negb (String.length (Utils.sanitizeInput value)
          <? GAME_CONFIG.MIN_WORD_LENGTH)%nat.
Proof.
  destruct (sanitizeInput_letters value) as [Hletters Hmax].
  unfold Utils.isValidInput.
  destruct (Nat.ltb_spec (String.length (Utils.sanitizeInput value))
              GAME_CONFIG.MIN_WORD_LENGTH) as [Hshort|Hlong]; [done|].
  destruct (Nat.ltb_spec GAME_CONFIG.MAX_WORD_LENGTH
              (String.length (Utils.sanitizeInput value))); [lia|].
  destruct (Utils.chars (Utils.sanitizeInput value)) as [|c cs] eqn:Hcs.
  - exfalso. revert Hlong. unfold GAME_CONFIG.MIN_WORD_LENGTH.
    rewrite <- (string_of_list_ascii_of_string (Utils.sanitizeInput value)).
    fold (Utils.chars (Utils.sanitizeInput value)). rewrite Hcs. simpl. lia.
  - simpl negb. clear Hcs. induction Hletters as [|x xs Hx _ IH]; [done|].
    cbn [forallb]. by rewrite Hx, IH.
Qed.

(** C9.  A submission rejected as too short, already found or already
    invalid leaves the round state as it was: same found words, same
    invalid words, same score.  A submission that cannot be formed or
    is not in the dictionary adds one new invalid word, and an accepted
    one adds one new found word and raises the score: these three
    outcomes, and only they, change the round state. *)
Theorem rejects_leave_state_unchanged dictionary wordInput st st' out :
  handleSubmitWord dictionary wordInput st = (st', out) →
  (out = TooShort ∨ out = AlreadyFound ∨ out = AlreadyInvalid →
     st' = st
     ∧ foundWords st' = foundWords st
     ∧ invalidWords st' = invalidWords st
     ∧ score st' = score st)
  ∧ (out = CannotForm ∨ out = NotInDictionary →
     invalidWords st' ≠ invalidWords st
     ∧ foundWords st' = foundWords st ∧ score st' = score st)
  ∧ (∀ points, out = Valid points →
     foundWords st' ≠ foundWords st
     ∧ invalidWords st' = invalidWords st
     ∧ score st' = score st + points ∧ 0 < points)
  ∧ (st' ≠ st ↔
     out = CannotForm ∨ out = NotInDictionary ∨ ∃ points, out = Valid points).
Proof.
  intros Hrun.
  pose proof (handleSubmitWord_cases dictionary wordInput st) as Hc.
  rewrite Hrun in Hc. simpl in Hc.
  destruct Hc as [st' out -> Hout ?|word out Hf Hi Hout|word Hf Hi].
  - assert (out = NotActive ∨ out = NoInput ∨ out = TooShort
            ∨ out = AlreadyFound ∨ out = AlreadyInvalid) as Hout'
      by (set_unfold in Hout; tauto).
    clear Hout. split_and!.
    + done.
    + intros [->| ->]; exfalso; intuition discriminate.
    + intros points ->. exfalso; intuition discriminate.
    + split; [done|].
      intros [->|[->|[points ->]]]; exfalso; intuition discriminate.
  - assert (out = CannotForm ∨ out = NotInDictionary) as Hout'
      by (set_unfold in Hout; tauto).
    clear Hout.
    assert (invalidWords (addInvalidWord word st) ≠ invalidWords st) as Hne.
    { simpl. intros Heq. apply Hi. rewrite <- Heq.
      by apply elem_of_union_l, elem_of_singleton. }
    split_and!.
    + intros [->|[->| ->]]; exfalso; intuition discriminate.
    + done.
    + intros points ->. exfalso; intuition discriminate.
    + split; [tauto|]. intros _ Heq. congruence.
  - assert (foundWords (addFoundWord word st) ≠ foundWords st) as Hne.
    { simpl. intros Heq. apply Hf. rewrite <- Heq.
      by apply elem_of_union_l, elem_of_singleton. }
    split_and!.
    + intros [?|[?|?]]; discriminate.
    + intros [?|?]; discriminate.
    + intros points [= <-]. split_and!; try done.
      apply calculateWordScore_pos.
    + split; [eauto|]. intros _ Heq. congruence.
Qed.

Lemma rejects_leave_state_unchanged_witness :
  let st := startGame 0 (Utils.chars "SCRATEPIOL") in
  (handleSubmitWord {["cat"]} (Some "a") st).2 = TooShort
  ∧ (handleSubmitWord {["cat"]} (Some "a") st).1 = st.
Proof.
  intros st. split; [reflexivity|].
  apply (rejects_leave_state_unchanged {["cat"]} (Some "a") st
           (handleSubmitWord {["cat"]} (Some "a") st).1 TooShort).
  - reflexivity.
  - by left.
Defined.

End Pipeline.

(** ** Forming a word from the letters *)

Section CanFormWord.

Import Utils LetterGenerator.

Lemma chars_ofChars (l : list ascii) : chars (ofChars l) = l.
Proof. apply list_ascii_of_string_of_list_ascii. Qed.

Lemma occurrences_cons_eq (c : ascii) (l : list ascii) :
  occurrences c (c :: l) = S (occurrences c l).
Proof. unfold occurrences. by apply count_occ_cons_eq. Qed.

Lemma occurrences_cons_ne (c x : ascii) (l : list ascii) :
  x ≠ c → occurrences c (x :: l) = occurrences c l.
Proof. intros. unfold occurrences. by apply count_occ_cons_neq. Qed.

(** The table built by the first loop holds, for every letter, the
    number of its occurrences among the lowered available letters. *)
Lemma countLetters_from (start : gmap ascii nat) (pool : list ascii)
    (c : ascii) :
  default 0%nat
    (foldl
       (λ letterCounts char,
          let lowerChar := toLowerChar char in
          <[lowerChar := (default 0 (letterCounts !! lowerChar) + 1)%nat]>
            letterCounts)
       start pool !! c)
  = (default 0 (start !! c) + occurrences c (toLowerChar <$> pool))%nat.
Proof.
  revert start. induction pool as [|x pool IH]; intros start.
  - unfold occurrences. simpl. lia.
  - rewrite fmap_cons. cbn [foldl]. rewrite IH.
    destruct (decide (toLowerChar x = c)) as [Heq|Hne].
    + rewrite Heq, lookup_insert_eq, occurrences_cons_eq. simpl. lia.
    + rewrite lookup_insert_ne, occurrences_cons_ne by done. done.
Qed.

Lemma countLetters_lookup (pool : list ascii) (c : ascii) :
  default 0%nat (countLetters pool !! c)
  = occurrences c (toLowerChar <$> pool).
Proof.
  unfold countLetters. rewrite countLetters_from.
  by rewrite lookup_empty.
Qed.

(** The second loop succeeds exactly when the table covers the word. *)
Lemma consume_spec (word : list ascii) (letterCounts : gmap ascii nat) :
  consume word letterCounts = true
  ↔ ∀ c, (occurrences c word ≤ default 0 (letterCounts !! c))%nat.
Proof.
  revert letterCounts.
  induction word as [|ch rest IH]; intros letterCounts; cbn [consume].
  - split; [|done]. intros _ c. unfold occurrences. simpl. lia.
  - destruct (letterCounts !! ch) as [[|n]|] eqn:Hch.
    + split; [done|]. intros H. specialize (H ch).
      rewrite occurrences_cons_eq, Hch in H. simpl in H. lia.
    + rewrite IH. split; intros H c; specialize (H c).
      * destruct (decide (ch = c)) as [->|Hne].
        -- rewrite lookup_insert_eq in H.
           rewrite occurrences_cons_eq, Hch. simpl in *. lia.
        -- rewrite lookup_insert_ne in H by done.
           by rewrite occurrences_cons_ne.
      * destruct (decide (ch = c)) as [->|Hne].
        -- rewrite lookup_insert_eq.
           rewrite occurrences_cons_eq, Hch in H. simpl in *. lia.
        -- rewrite lookup_insert_ne by done.
           by rewrite occurrences_cons_ne in H.
    + split; [done|]. intros H. specialize (H ch).
      rewrite occurrences_cons_eq, Hch in H. simpl in H. lia.
Qed.

(** C3.  [canFormWord] answers [true] exactly when every letter occurs
    in the word at most as often as among the available letters, both
    taken in lower case; the empty word can be formed from every pool. *)
Theorem canFormWord_multiset_subset (word : string)
    (availableLetters : list ascii) :
  (canFormWord word availableLetters = true
   ↔ ∀ letter,
       (occurrences letter (toLowerChar <$> chars word)
        ≤ occurrences letter (toLowerChar <$> availableLetters))%nat)
  ∧ canFormWord "" availableLetters = true.
Proof.
  split; [|reflexivity].
  unfold canFormWord, toLowerCase.
  rewrite chars_ofChars, consume_spec.
  by setoid_rewrite countLetters_lookup.
Qed.

Example canFormWord_cat :
  canFormWord "CAT" (chars "SCRATEPIOL") = true.
Proof. reflexivity. Qed.

Example canFormWord_eerie :
  canFormWord "EERIE" (chars "SCRATEPIOL") = false.
Proof. reflexivity. Qed.

End CanFormWord.

(** ** Generating the letters *)

Section Generate.

Import Utils LetterGenerator.

(** [Math.floor(Math.random() * n)] is an index below [n]. *)
Lemma randomFloor_lt (u : draw) (n : nat) :
  (0 < n)%nat → (randomFloor u n < n)%nat.
Proof.
  intros Hn. unfold randomFloor.
  apply Nat.Div0.div_lt_upper_bound. nia.
Qed.

Lemma get_chars (s : string) (i : nat) : String.get i s = chars s !! i.
Proof.
  revert i. induction s as [|c s IH]; intros [|i]; simpl; auto.
Qed.

Lemma length_chars (s : string) : length (chars s) = String.length s.
Proof. induction s; simpl; congruence. Qed.

Section Shuffle.
Context {A : Type}.
Implicit Types l : list A.

Lemma swap_Permutation (i j : nat) l : swap i j l ≡ₚ l.
Proof.
  unfold swap.
  destruct (l !! i) as [x|] eqn:Hi; [|done].
  destruct (l !! j) as [y|] eqn:Hj; [|done].
  by apply Permutation_insert_swap.
Qed.

(** Inside the array the two elements change places. *)
Lemma swap_lookup (i j : nat) l :
  (i < length l)%nat → (j < length l)%nat →
  swap i j l !! i = l !! j ∧ swap i j l !! j = l !! i.
Proof.
  intros Hi Hj. unfold swap.
  destruct (lookup_lt_is_Some_2 l i Hi) as [x Hx].
  destruct (lookup_lt_is_Some_2 l j Hj) as [y Hy].
  rewrite Hx, Hy. split.
  - destruct (decide (i = j)) as [->|Hne].
    + rewrite list_lookup_insert_eq by (by rewrite length_insert).
      congruence.
    + rewrite list_lookup_insert_ne by done.
      by rewrite list_lookup_insert_eq.
  - by rewrite list_lookup_insert_eq by (by rewrite length_insert).
Qed.

Lemma shuffleLoop_Permutation random (k i : nat) l :
  (shuffleLoop random k i l).1 ≡ₚ l.
Proof.
  revert k l. induction i as [|i IH]; intros k l; simpl; [done|].
  rewrite IH. apply swap_Permutation.
Qed.

Lemma shuffleArray_Permutation random (k : nat) l :
  (shuffleArray random k l).1 ≡ₚ l.
Proof. apply shuffleLoop_Permutation. Qed.
End Shuffle.

(** Every letter picked from a pool that is not empty is a character of
    the pool. *)
Lemma pushRandom_spec (pool : string) random (k count : nat)
    (letters : list (option ascii)) :
  (0 < String.length pool)%nat →
  ∃ picked : list ascii,
    (pushRandom pool random k count letters).1 = letters ++ (Some <$> picked)
    ∧ (pushRandom pool random k count letters).2 = (k + count)%nat
    ∧ length picked = count
    ∧ Forall (λ c, c ∈ chars pool) picked.
Proof.
  intros Hpool. revert k letters.
  induction count as [|count IH]; intros k letters; simpl.
  - exists []. simpl. rewrite app_nil_r. split_and!; auto with lia.
  - pose proof (randomFloor_lt (random k) _ Hpool) as Hlt.
    rewrite get_chars.
    destruct (lookup_lt_is_Some_2 (chars pool)
                (randomFloor (random k) (String.length pool)))
      as [c Hc]; [by rewrite length_chars|].
    rewrite Hc.
    destruct (IH (S k) (letters ++ [Some c])) as (picked & -> & -> & Hlen & Hall).
    exists (c :: picked). split_and!.
    + by rewrite <- app_assoc.
    + lia.
    + simpl. by rewrite Hlen.
    + constructor; [|done]. by eapply list_elem_of_lookup_2.
Qed.

Lemma countFrom_all (pool : string) (letters : list ascii) :
  Forall (λ c, c ∈ chars pool) letters →
  countFrom pool (Some <$> letters) = length letters.
Proof.
  unfold countFrom. induction 1 as [|c l Hc _ IH]; [done|].
  rewrite fmap_cons, filter_cons_True; [simpl; by rewrite IH|].
  simpl. by apply bool_decide_eq_true.
Qed.

Lemma countFrom_none (pool : string) (letters : list ascii) :
  Forall (λ c, c ∉ chars pool) letters →
  countFrom pool (Some <$> letters) = 0%nat.
Proof.
  unfold countFrom. induction 1 as [|c l Hc _ IH]; [done|].
  rewrite fmap_cons, filter_cons_False; [done|].
  simpl. rewrite bool_decide_eq_true. done.
Qed.

Lemma countFrom_app (pool : string) (l1 l2 : list (option ascii)) :
  countFrom pool (l1 ++ l2) = (countFrom pool l1 + countFrom pool l2)%nat.
Proof. unfold countFrom. by rewrite filter_app, length_app. Qed.

Lemma countFrom_Permutation (pool : string) (l1 l2 : list (option ascii)) :
  l1 ≡ₚ l2 → countFrom pool l1 = countFrom pool l2.
Proof. intros H. unfold countFrom. by rewrite H. Qed.

(** No consonant of the pool is a vowel of the pool, and conversely. *)
Lemma pools_disjoint (c : ascii) :
  c ∈ chars GAME_CONFIG.VOWEL_POOL →
  c ∈ chars GAME_CONFIG.CONSONANT_POOL → False.
Proof.
  intros Hv Hc.
  assert (Forall (λ c, c ∉ chars GAME_CONFIG.CONSONANT_POOL)
            (chars GAME_CONFIG.VOWEL_POOL)) as Hall.
  { apply (bool_decide_unpack _). vm_compute. exact I. }
  rewrite Forall_forall in Hall. by apply (Hall c).
Qed.

(** C8.  The generated array has [NUM_LETTERS] (10) elements.  Before
    the shuffle it is 4 characters of the vowel pool followed by 6
    characters of the consonant pool; the shuffle returns a permutation
    of it, so the result holds exactly 4 vowels and 6 consonants, and
    every element is a character of one of the two pools.  The shuffle
    permutes every array it is given. *)
Theorem generate_pool (random : nat → draw) (k : nat) :
  length (generate random k).1 = GAME_CONFIG.NUM_LETTERS
  ∧ (∃ vowels consonants : list ascii,
       length vowels = numVowels
       ∧ length consonants = (GAME_CONFIG.NUM_LETTERS - numVowels)%nat
       ∧ Forall (λ c, c ∈ chars GAME_CONFIG.VOWEL_POOL) vowels
       ∧ Forall (λ c, c ∈ chars GAME_CONFIG.CONSONANT_POOL) consonants
       ∧ (draws random k).1 = Some <$> (vowels ++ consonants)
       ∧ (generate random k).1 ≡ₚ Some <$> (vowels ++ consonants))
  ∧ countFrom GAME_CONFIG.VOWEL_POOL (generate random k).1 = numVowels
  ∧ countFrom GAME_CONFIG.CONSONANT_POOL (generate random k).1
    = (GAME_CONFIG.NUM_LETTERS - numVowels)%nat
  ∧ (∀ (letters : list ascii) (k' : nat),
       (shuffleArray random k' letters).1 ≡ₚ letters
       ∧ length (shuffleArray random k' letters).1 = length letters).
Proof.
  assert (∃ vowels consonants : list ascii,
       length vowels = numVowels
       ∧ length consonants = (GAME_CONFIG.NUM_LETTERS - numVowels)%nat
       ∧ Forall (λ c, c ∈ chars GAME_CONFIG.VOWEL_POOL) vowels
       ∧ Forall (λ c, c ∈ chars GAME_CONFIG.CONSONANT_POOL) consonants
       ∧ (draws random k).1 = Some <$> (vowels ++ consonants)
       ∧ (generate random k).1 ≡ₚ Some <$> (vowels ++ consonants))
    as (vowels & consonants & Hlv & Hlc & Hv & Hc & Hdraws & Hperm).
  { unfold generate, draws.
    destruct (pushRandom_spec GAME_CONFIG.VOWEL_POOL random k numVowels [])
      as (vowels & Hv1 & Hv2 & Hlv & Hv); [simpl; lia|].
    destruct (pushRandom GAME_CONFIG.VOWEL_POOL random k numVowels [])
      as [letters k1]. simpl in Hv1, Hv2. subst letters k1.
    destruct (pushRandom_spec GAME_CONFIG.CONSONANT_POOL random
                (k + numVowels) numConsonants (Some <$> vowels))
      as (consonants & Hc1 & Hc2 & Hlc & Hc); [simpl; lia|].
    destruct (pushRandom GAME_CONFIG.CONSONANT_POOL random
                (k + numVowels) numConsonants (Some <$> vowels))
      as [letters k2]. simpl in Hc1, Hc2. subst letters k2.
    exists vowels, consonants. rewrite fmap_app.
    split_and!; auto. apply shuffleArray_Permutation. }
  split_and!.
  - rewrite Hperm, length_fmap, length_app, Hlv, Hlc. reflexivity.
  - by exists vowels, consonants.
  - rewrite (countFrom_Permutation _ _ _ Hperm), fmap_app, countFrom_app.
    rewrite countFrom_all, countFrom_none, Hlv; [lia| |done].
    eapply Forall_impl; [exact Hc|]. intros c Hcc Hcv.
    by apply (pools_disjoint c).
  - rewrite (countFrom_Permutation _ _ _ Hperm), fmap_app, countFrom_app.
    rewrite countFrom_none, countFrom_all, Hlc; [lia|done|].
    eapply Forall_impl; [exact Hv|]. intros c Hcv Hcc.
    by apply (pools_disjoint c).
  - intros letters k'. split.
    + apply shuffleArray_Permutation.
    + by rewrite shuffleArray_Permutation.
Qed.

End Generate.

(** ** The countdown *)

Section Countdown.

Import GameTimer.

(** *** Doubles that hold whole numbers *)

Lemma roundDouble_exact (n : Z) : Z.abs n < 2 ^ 53 → roundDouble n = n.
Proof.
  intros H. unfold roundDouble.
  by destruct (Z.ltb_spec (Z.abs n) (2 ^ 53)); [|lia].
Qed.

(** Rounding a whole number that is not negative gives one that is not
    negative, and rounding one that is at least 1 gives one that is at
    least 1. *)
Lemma roundDouble_nonneg (n : Z) : 0 ≤ n → 0 ≤ roundDouble n.
Proof.
  intros Hn. unfold roundDouble.
  destruct (Z.ltb_spec (Z.abs n) (2 ^ 53)) as [|Hbig]; [done|].
  assert (0 < 2 ^ (Z.log2 (Z.abs n) - 52)) as Hulp.
  { apply Z.pow_pos_nonneg; [lia|].
    assert (53 ≤ Z.log2 (Z.abs n)); [|lia].
    apply Z.log2_le_pow2; lia. }
  set (ulp := 2 ^ (Z.log2 (Z.abs n) - 52)) in *.
  assert (0 ≤ n `div` ulp) as Hq by (apply Z.div_pos; lia).
  repeat case_match; nia.
Qed.

Lemma roundDouble_pos (n : Z) : 1 ≤ n → 1 ≤ roundDouble n.
Proof.
  intros Hn. unfold roundDouble.
  destruct (Z.ltb_spec (Z.abs n) (2 ^ 53)) as [|Hbig]; [done|].
  rewrite Z.abs_eq in * by lia.
  assert (53 ≤ Z.log2 n) as Hlog by (apply Z.log2_le_pow2; lia).
  assert (0 < 2 ^ (Z.log2 n - 52)) as Hulp
    by (apply Z.pow_pos_nonneg; lia).
  assert (2 ^ (Z.log2 n - 52) ≤ n) as Hle.
  { transitivity (2 ^ Z.log2 n).
    - apply Z.pow_le_mono_r; lia.
    - apply Z.log2_spec. lia. }
  set (ulp := 2 ^ (Z.log2 n - 52)) in *.
  assert (1 ≤ n `div` ulp) as Hq.
  { apply Z.div_le_lower_bound; lia. }
  repeat case_match; nia.
Qed.

(** *** Every run *)

Lemma course_step (a : action) (tm : t) (events : list event) :
  oneRun a = true → course tm events →
  course (step a tm).1 (events ++ (step a tm).2).
Proof.
  intros Ha Hc. destruct tm as [i tl p].
  destruct a as [d| | | |seconds|]; try discriminate;
    cbn [step fst snd]; rewrite ?app_nil_r.
  - (* stop *)
    destruct Hc as [ticks -> Hticks|ticks n -> Hticks Hn Hoff].
    + by eapply course_ticking.
    + eapply course_completed; eauto. cbn in Hoff. by subst i.
  - (* pause *)
    destruct Hc as [ticks -> Hticks|ticks n -> Hticks Hn Hoff];
      [by eapply course_ticking | by eapply course_completed].
  - (* resume *)
    destruct Hc as [ticks -> Hticks|ticks n -> Hticks Hn Hoff];
      [by eapply course_ticking | by eapply course_completed].
  - (* addTime *)
    destruct Hc as [ticks -> Hticks|ticks n -> Hticks Hn Hoff];
      [by eapply course_ticking | by eapply course_completed].
  - (* one second passes *)
    destruct Hc as [ticks -> Hticks|ticks n -> Hticks Hn Hoff].
    + cbn [interval]. destruct i; cbn [fst snd];
        [|rewrite app_nil_r; by eapply course_ticking].
      unfold onInterval. cbn [isPaused timeLeft interval].
      destruct p; cbn [fst snd];
        [rewrite app_nil_r; by eapply course_ticking|].
      destruct (Z.leb_spec (roundDouble (tl - 1)) 0) as [Hle|Hgt];
        cbn [fst snd].
      * by eapply course_completed.
      * eapply (course_ticking _ _ (ticks ++ [roundDouble (tl - 1)])).
        -- by rewrite fmap_app.
        -- apply Forall_app. split; [done|]. by constructor.
    + cbn in Hoff. subst i. cbn [interval fst snd]. rewrite app_nil_r.
      by eapply course_completed.
Qed.

Lemma course_run (actions : list action) (tm : t) (events : list event) :
  forallb oneRun actions = true → course tm events →
  course (run actions tm).1 (events ++ (run actions tm).2).
Proof.
  revert tm events.
  induction actions as [|a actions IH]; intros tm events Hall Hc.
  - cbn. by rewrite app_nil_r.
  - cbn [forallb] in Hall. apply andb_prop in Hall as [Ha Hall].
    pose proof (course_step a tm events Ha Hc) as Hc'.
    cbn [run]. destruct (step a tm) as [tm1 events1]. cbn [fst snd] in Hc'.
    specialize (IH tm1 (events ++ events1) Hall Hc').
    destruct (run actions tm1) as [tm2 events2]. cbn [fst snd] in *.
    by rewrite app_assoc.
Qed.

Lemma completions_ticks (ticks : list Z) :
  completions (Tick <$> ticks) = 0%nat.
Proof.
  unfold completions. induction ticks as [|n ticks IH]; [done|].
  rewrite fmap_cons, filter_cons_False; [done|]. simpl. done.
Qed.

Lemma completions_completed (ticks : list Z) (n : Z) :
  completions ((Tick <$> ticks) ++ [Tick n; Complete]) = 1%nat.
Proof.
  unfold completions. rewrite filter_app, length_app.
  fold (completions (Tick <$> ticks)). by rewrite completions_ticks.
Qed.

Lemma ticks_no_Complete (ticks : list Z) : Complete ∉ Tick <$> ticks.
Proof. intros (n & Hn & _)%list_elem_of_fmap. discriminate. Qed.

Lemma ticks_above (ticks : list Z) (n : Z) :
  Forall (λ m, 0 < m) ticks → Tick n ∈ Tick <$> ticks → 0 < n.
Proof.
  intros Hticks (m & [= ->] & Hm)%list_elem_of_fmap.
  rewrite Forall_forall in Hticks. by apply Hticks.
Qed.

(** Nothing follows the completion in a completed course. *)
Lemma completed_split (ticks : list Z) (n : Z) (before after : list event) :
  (Tick <$> ticks) ++ [Tick n; Complete] = before ++ Complete :: after →
  after = [] ∧ before = (Tick <$> ticks) ++ [Tick n].
Proof.
  intros Heq.
  change ((Tick <$> ticks) ++ [Tick n; Complete])
    with ((Tick <$> ticks) ++ [Tick n] ++ [Complete]) in Heq.
  rewrite app_assoc in Heq.
  destruct after as [|ev after _] using rev_ind.
  - by apply app_inj_tail in Heq as [<- _].
  - exfalso. rewrite app_comm_cons, app_assoc in Heq.
    apply app_inj_tail in Heq as [Heq <-].
    assert (Complete ∈ (Tick <$> ticks) ++ [Tick n]) as Hin.
    { rewrite Heq. apply elem_of_app. right. by left. }
    apply elem_of_app in Hin as [Hin|Hin].
    + by apply ticks_no_Complete in Hin.
    + apply elem_of_cons in Hin as [?|Hin]; [done|].
      by apply elem_of_nil in Hin.
Qed.

(** *** Runs that began with a positive duration *)

Lemma shape_step (a : action) (tm : t) (events : list event) :
  tame a = true → shape tm events →
  shape (step a tm).1 (events ++ (step a tm).2).
Proof.
  intros Ha Hs.
  destruct a as [d| | | |seconds|]; try discriminate; simpl.
  - (* stop *)
    rewrite app_nil_r. unfold stop.
    destruct Hs as [ticks -> Hticks Hnn Hrun|ticks -> Hticks Hnn Hoff].
    + destruct (interval tm) eqn:Hi; simpl.
      * by eapply shape_counting.
      * eapply shape_counting; eauto.
    + rewrite Hoff. by eapply shape_completed.
  - (* pause *)
    rewrite app_nil_r.
    destruct Hs as [ticks -> Hticks Hnn Hrun|ticks -> Hticks Hnn Hoff];
      [by eapply shape_counting | by eapply shape_completed].
  - (* resume *)
    rewrite app_nil_r.
    destruct Hs as [ticks -> Hticks Hnn Hrun|ticks -> Hticks Hnn Hoff];
      [by eapply shape_counting | by eapply shape_completed].
  - (* addTime *)
    rewrite app_nil_r.
    assert (0 ≤ seconds) as Hsec.
    { unfold tame in Ha. simpl in Ha. by apply Z.leb_le in Ha. }
    destruct Hs as [ticks -> Hticks Hnn Hrun|ticks -> Hticks Hnn Hoff].
    + eapply shape_counting; eauto; simpl.
      * apply roundDouble_nonneg. lia.
      * intros Hi. specialize (Hrun Hi). apply roundDouble_pos. lia.
    + eapply shape_completed; eauto; simpl.
      apply roundDouble_nonneg. lia.
  - (* one second passes *)
    destruct Hs as [ticks -> Hticks Hnn Hrun|ticks -> Hticks Hnn Hoff].
    + destruct (interval tm) eqn:Hi; simpl;
        [| rewrite app_nil_r; eapply shape_counting; eauto].
      specialize (Hrun eq_refl). unfold onInterval.
      destruct (isPaused tm); simpl.
      { rewrite app_nil_r. eapply shape_counting; eauto. }
      pose proof (roundDouble_nonneg (timeLeft tm - 1) ltac:(lia)) as Hnn'.
      destruct (Z.leb_spec (roundDouble (timeLeft tm - 1)) 0) as [Hle|Hgt];
        simpl.
      * assert (roundDouble (timeLeft tm - 1) = 0) as -> by lia.
        unfold stop. simpl. rewrite Hi. simpl.
        eapply shape_completed; eauto; simpl; lia.
      * eapply (shape_counting _ _
                  (ticks ++ [roundDouble (timeLeft tm - 1)]));
          simpl; [by rewrite fmap_app| |lia|lia].
        apply Forall_app. split; [done|]. constructor; [lia|done].
    + rewrite Hoff. simpl. rewrite app_nil_r.
      by eapply shape_completed.
Qed.

Lemma shape_run (actions : list action) (tm : t) (events : list event) :
  forallb tame actions = true → shape tm events →
  shape (run actions tm).1 (events ++ (run actions tm).2).
Proof.
  revert tm events.
  induction actions as [|a actions IH]; intros tm events Hall Hs; simpl.
  - by rewrite app_nil_r.
  - simpl in Hall. apply andb_prop in Hall as [Ha Hall].
    pose proof (shape_step a tm events Ha Hs) as Hs'.
    destruct (step a tm) as [tm1 events1]. simpl in Hs'.
    specialize (IH tm1 (events ++ events1) Hall Hs').
    destruct (run actions tm1) as [tm2 events2]. simpl in *.
    by rewrite app_assoc.
Qed.

Lemma tame_all (actions : list action) :
  forallb oneRun actions = true → forallb addsTime actions = true →
  forallb tame actions = true.
Proof.
  induction actions as [|a actions IH]; [done|]. cbn [forallb].
  intros [Ha Hall]%andb_prop [Hb Hall']%andb_prop.
  rewrite IH by done. unfold tame. fold (oneRun a). by rewrite Ha, Hb.
Qed.

(** *** A timer left alone *)

(** A timer started with [d] seconds, at most 2^53, and left alone for
    [d] seconds reports the ticks [d - 1], ..., 0 and then completes. *)
Lemma countdown (d : nat) (tm : t) :
  interval tm = true → isPaused tm = false →
  timeLeft tm = Z.of_nat (S d) → Z.of_nat (S d) ≤ 2 ^ 53 →
  run (replicate (S d) Elapse) tm
  = ({| interval := false; timeLeft := 0; isPaused := false |},
     (Tick <$> reverse (seqZ 0 (Z.of_nat (S d)))) ++ [Complete]).
Proof.
  revert tm. induction d as [|d IH]; intros [i tl p] Hi Hp Htl Hmax;
    simpl in Hi, Hp, Htl; subst i p tl.
  - reflexivity.
  - change (replicate (S (S d)) Elapse)
      with (Elapse :: replicate (S d) Elapse).
    cbn [run step interval]. unfold onInterval.
    cbn [isPaused timeLeft interval].
    rewrite (roundDouble_exact (Z.of_nat (S (S d)) - 1)) by lia.
    destruct (Z.leb_spec (Z.of_nat (S (S d)) - 1) 0) as [Hle|Hgt]; [lia|].
    rewrite IH; [| reflexivity | reflexivity | simpl; lia | lia].
    f_equal.
    replace (Z.of_nat (S (S d))) with (Z.of_nat (S d) + 1) by lia.
    rewrite seqZ_app, reverse_app by lia.
    rewrite fmap_app. simpl. do 2 f_equal. lia.
Qed.

Lemma run_stopped (n : nat) (tm : t) :
  interval tm = false → run (replicate n Elapse) tm = (tm, []).
Proof.
  intros Hi. induction n as [|n IH]; simpl; [done|].
  by rewrite Hi, IH.
Qed.

Lemma run_app (actions1 actions2 : list action) (tm : t) :
  run (actions1 ++ actions2) tm
  = ((run actions2 (run actions1 tm).1).1,
     (run actions1 tm).2 ++ (run actions2 (run actions1 tm).1).2).
Proof.
  revert tm. induction actions1 as [|a actions1 IH]; intros tm; simpl.
  - by destruct (run actions2 tm).
  - destruct (step a tm) as [tm1 events1]. rewrite IH.
    destruct (run actions1 tm1) as [tm2 events2]. simpl.
    destruct (run actions2 tm2) as [tm3 events3]. simpl.
    by rewrite app_assoc.
Qed.

(** C4, as stated, fails: a timer started with 0 seconds reports -1
    seconds left at its first tick (and only then completes). *)
Lemma start_zero_goes_negative :
  run [Start 0; Elapse] new
  = ({| interval := false; timeLeft := -1; isPaused := false |},
     [Tick (-1); Complete])
  ∧ timeLeft (run [Start 0; Elapse] new).1 < 0.
Proof. split; [reflexivity | vm_compute; reflexivity]. Qed.

(** Nor does [addTime] keep the value from going below zero. *)
Example addTime_goes_negative :
  timeLeft (run [Start 5; AddTime (-10)] new).1 = -5.
Proof. reflexivity. Qed.

(** Above 2^53 a double cannot count down by one: such a timer reports
    the same value at every tick and does not complete. *)
Example huge_duration_stands_still :
  (run [Start (2 ^ 53 + 4); Elapse; Elapse] new).2
  = [Tick (2 ^ 53 + 4); Tick (2 ^ 53 + 4)].
Proof. reflexivity. Qed.

(** C4, amended.  Take any run of the countdown: a start with any
    duration, followed by any sequence of stop, pause, resume, adding
    time and seconds passing.  The completion callback is called at most
    once; nothing is reported after it, it comes right after a tick of
    zero or less, and the interval is then cleared; and a tick of zero
    or less is always the last tick, all ticks before it being above
    zero, and is followed by the completion.  When the run starts with a
    whole number of seconds that is at least 1 and the times added are
    whole and not negative, the seconds left are never negative and no
    tick reports a negative value, so that the last tick is the tick to
    zero.  Left alone after a start with [d] seconds, [d] between 1 and
    2^53, the timer reports the ticks [d - 1] down to 0, completes once,
    and reports nothing more however many further seconds pass. *)
Theorem countdown_completes_once (d : Z) (actions : list action) (tm : t) :
  forallb oneRun actions = true →
  let final := (run (Start d :: actions) tm).1 in
  let events := (run (Start d :: actions) tm).2 in
  (completions events ≤ 1)%nat
  ∧ (∀ before after, events = before ++ Complete :: after →
       after = []
       ∧ (∃ ticks n, before = ticks ++ [Tick n] ∧ n ≤ 0)
       ∧ interval final = false)
  ∧ (∀ n, Tick n ∈ events → n ≤ 0 →
       (∃ ticks, events = (Tick <$> ticks) ++ [Tick n; Complete]
                 ∧ Forall (λ m, 0 < m) ticks)
       ∧ completions events = 1%nat
       ∧ interval final = false)
  ∧ (1 ≤ d → forallb addsTime actions = true →
     0 ≤ timeLeft final ∧ ∀ n, Tick n ∈ events → 0 ≤ n)
  ∧ (1 ≤ d ≤ 2 ^ 53 →
     ∀ more : nat,
       run (Start d :: replicate (Z.to_nat d) Elapse
              ++ replicate more Elapse) tm
       = ({| interval := false; timeLeft := 0; isPaused := false |},
          (Tick <$> reverse (seqZ 0 d)) ++ [Complete])).
Proof.
  intros Hone final events.
  assert (course final events) as Hc.
  { subst final events. cbn [run step].
    pose proof (course_run actions (start d tm) [] Hone) as H.
    destruct (run actions (start d tm)) as [tm' events']. cbn [fst snd] in *.
    apply H. by apply (course_ticking _ _ []). }
  split_and!.
  - destruct Hc as [ticks -> _|ticks n -> _ _ _].
    + rewrite completions_ticks. lia.
    + rewrite completions_completed. lia.
  - intros before after Heq.
    destruct Hc as [ticks Hev _|ticks n Hev _ Hn Hoff].
    + exfalso. apply (ticks_no_Complete ticks). rewrite <- Hev, Heq.
      apply elem_of_app. right. by left.
    + rewrite Hev in Heq.
      apply completed_split in Heq as [-> ->].
      split_and!; [done | by exists (Tick <$> ticks), n | done].
  - intros n Hin Hn.
    destruct Hc as [ticks Hev Hticks|ticks m Hev Hticks Hm Hoff].
    + exfalso. rewrite Hev in Hin.
      pose proof (ticks_above ticks n Hticks Hin). lia.
    + rewrite Hev in Hin. apply elem_of_app in Hin as [Hin|Hin].
      * exfalso. pose proof (ticks_above ticks n Hticks Hin). lia.
      * apply elem_of_cons in Hin as [[= ->]|Hin].
        -- rewrite Hev, completions_completed. eauto.
        -- apply elem_of_cons in Hin as [?|Hin]; [done|].
           by apply elem_of_nil in Hin.
  - intros Hd Hadds.
    assert (shape final events) as Hs.
    { subst final events. cbn [run step].
      pose proof (shape_run actions (start d tm) []
                    (tame_all actions Hone Hadds)) as H.
      destruct (run actions (start d tm)) as [tm' events'].
      cbn [fst snd] in *.
      apply H. apply (shape_counting _ _ []); simpl; auto with lia. }
    split; [by destruct Hs|]. intros n Hn.
    destruct Hs as [ticks -> Hticks _ _|ticks -> Hticks _ _].
    + apply list_elem_of_fmap in Hn as (m & [= ->] & Hm).
      rewrite Forall_forall in Hticks. specialize (Hticks _ Hm). lia.
    + apply elem_of_app in Hn as [Hn|Hn].
      * apply list_elem_of_fmap in Hn as (m & [= ->] & Hm).
        rewrite Forall_forall in Hticks. specialize (Hticks _ Hm). lia.
      * apply elem_of_cons in Hn as [[= ->]|Hn]; [lia|].
        apply elem_of_cons in Hn as [?|Hn]; [done|].
        by apply elem_of_nil in Hn.
  - intros Hd more.
    change (Start d :: replicate (Z.to_nat d) Elapse ++ replicate more Elapse)
      with ([Start d] ++ replicate (Z.to_nat d) Elapse
              ++ replicate more Elapse).
    rewrite run_app. cbn [run step fst snd app].
    destruct (Z.to_nat d) as [|n] eqn:Hn; [lia|].
    rewrite run_app, (countdown n); simpl; [| done | done | lia | lia].
    rewrite run_stopped by done. simpl. rewrite app_nil_r.
    replace (Z.of_nat (S n)) with d by lia. reflexivity.
Qed.

Lemma countdown_completes_once_witness :
  (run (Start 5 :: [Elapse; Pause; Elapse; Resume; AddTime 1; Elapse])
     new).2 = [Tick 4; Tick 4]
  ∧ 0 ≤ timeLeft
          (run (Start 5 :: [Elapse; Pause; Elapse; Resume; AddTime 1; Elapse])
             new).1
  ∧ run (Start 5 :: replicate 5 Elapse ++ replicate 3 Elapse) new
    = ({| interval := false; timeLeft := 0; isPaused := false |},
       [Tick 4; Tick 3; Tick 2; Tick 1; Tick 0; Complete]).
Proof.
  split; [reflexivity|].
  pose proof (countdown_completes_once 5
                [Elapse; Pause; Elapse; Resume; AddTime 1; Elapse] new
                eq_refl) as H.
  cbv zeta in H. destruct H as (_ & _ & _ & Hnonneg & Halone).
  split.
  - destruct (Hnonneg ltac:(lia) eq_refl) as [Hleft _]. exact Hleft.
  - apply Halone. lia.
Defined.

End Countdown.

(** ** Loading the dictionary *)

Section Load.

Import Dictionary.

(** C1, as stated, fails: with nothing cached and the network down,
    the promise returned by [load] is rejected with the network error,
    although the fallback list is installed. *)
Lemma load_offline_rejects :
  (_loadFromCache (nowAtCacheCheck offline) (new None)).1 = None
  ∧ (_loadFromNetwork offline (new None)).1
    = inl (TransportError "Failed to fetch")
  ∧ (load offline (new None)).1
    = Rejected (TransportError "Failed to fetch")
  ∧ (load offline (new None)).1 ≠ Fulfilled.
Proof. split_and!; [reflexivity..|discriminate]. Qed.

Lemma logged_log entry d : log (logged entry d) = log d ++ [entry].
Proof. reflexivity. Qed.

(** A failed network load leaves the word set and the flag alone. *)
Lemma _loadFromNetwork_failure (e : env) (d d' : t) (err : error) :
  _loadFromNetwork e d = (inl err, d') →
  d' = logged (WarnNetworkFailed err) (logged DebugLoadingFromNetwork d).
Proof.
  unfold _loadFromNetwork. intros H.
  destruct (response e) as [message|ok status [message|text]];
    [| destruct ok; simpl in H ..]; by simplify_eq.
Qed.

(** The cache check never throws: it yields a set or [null]. *)
Lemma _loadFromCache_miss (now : Z) (d d' : t) :
  _loadFromCache now d = (None, d') →
  words d' = words d ∧ isLoaded d' = isLoaded d
  ∧ loadPromise d' = loadPromise d.
Proof.
  unfold _loadFromCache. intros H.
  destruct (storage d) as [[ws ts]|]; [|by simplify_eq].
  simpl in H.
  destruct ws as [| |l]; [by simplify_eq|..];
    destruct (ts =? 0); try (by simplify_eq);
    destruct (now - ts <? GAME_CONFIG.DICTIONARY_MAX_AGE);
    by simplify_eq.
Qed.

(** C1, amended.  When the cache check yields nothing and the network
    load throws [err], [load] installs the built-in word list, marks
    the dictionary loaded and logs the failure, and then throws [err]
    again: the load completes as a failure, the promise it returns being
    rejected with [err], and so is the one every later call returns. *)
Theorem load_failure_falls_back_and_rethrows
    (e : env) (d d1 d2 : t) (err : error) :
  loadPromise d = None →
  _loadFromCache (nowAtCacheCheck e) d = (None, d1) →
  _loadFromNetwork e d1 = (inl err, d2) →
  let result := (load e d).1 in
  let d' := (load e d).2 in
  words d' = list_to_set fallbackWords
  ∧ isLoaded d' = true
  ∧ ErrorLoading err ∈ log d'
  ∧ InfoFallback ∈ log d'
  ∧ result = Rejected err
  ∧ (∀ e', load e' d' = (Rejected err, d')).
Proof.
  intros Hfresh Hcache Hnet result d'. subst result d'.
  unfold load. rewrite Hfresh.
  unfold _loadDictionary. rewrite Hcache, Hnet. simpl.
  split_and!; try reflexivity.
  - apply elem_of_app. left. apply elem_of_app. right. by left.
  - apply elem_of_app. right. by left.
Qed.

Lemma load_failure_falls_back_and_rethrows_witness :
  let d' := (load offline (new None)).2 in
  "viking" ∈ words d' ∧ isLoaded d' = true
  ∧ (load offline (new None)).1
    = Rejected (TransportError "Failed to fetch").
Proof.
  intros d'.
  destruct (load_failure_falls_back_and_rethrows offline (new None)
              (new None)
              (logged (WarnNetworkFailed (TransportError "Failed to fetch"))
                 (logged DebugLoadingFromNetwork (new None)))
              (TransportError "Failed to fetch"))
    as (Hwords & Hloaded & _ & _ & Hresult & _);
    [reflexivity | reflexivity | reflexivity |].
  split_and!; [|exact Hloaded|exact Hresult].
  subst d'. rewrite Hwords. unfold fallbackWords.
  apply elem_of_list_to_set. apply list_elem_of_In. simpl. tauto.
Defined.

End Load.
